(** * Filtering elements of troi: [troi/filters.py]

    A shallow embedding of the six filter elements of
    [troi/filters.py].  Each [read] method becomes a Rocq function over
    the list of input recordings; Python truthiness tests ([not x]) are
    written out on the option types of the entity model; the exceptions
    of the artist-credit limiter are an explicit result type. *)

From Stdlib Require Import String ZArith Bool Lia List.
From Stdlib Require Import Sorting.Permutation Sorting.Sorted.
Import ListNotations.
Open Scope Z_scope.

(** ** Entity model *)

(** [troi.Artist]: the fields read by the filters. *)
Module Artist.
Record t := mk {
  artist_credit_id : option Z;
  name : option string
}.
End Artist.

(** [troi.Recording]: the fields read by the filters. *)
Record Recording := mkRecording {
  mbid : string;
  name : option string;
  year : option Z;
  ranking : option Z;
  artist : option Artist.t
}.

(** Python truthiness of an optional integer field: [None] and [0] are
    falsy. *)
Definition truthy_int (v : option Z) : bool :=
  match v with
  | None => false
  | Some z => negb (z =? 0)
  end.

(** [x in xs] for a Python list or dict of integers. *)
Definition mem_Z (x : Z) (xs : list Z) : bool := existsb (Z.eqb x) xs.

(** [x in xs] for a Python list of strings. *)
Definition mem_str (x : string) (xs : list string) : bool :=
  existsb (String.eqb x) xs.

(** ** ArtistCreditFilterElement.read *)

Section ArtistCreditFilter.
Variable artist_credit_ids : list Z.
Variable include : bool.

(** One iteration of the loop over [recordings]: [(results, debug log)]
    extended by recording [r]. *)
Definition acf_step (acc : list Recording * list string) (r : Recording)
  : list Recording * list string :=
  let (results, log) := acc in
  match artist r with
  | None => (results, log ++ [mbid r])
  | Some a =>
      if negb (truthy_int (Artist.artist_credit_id a))
      then (results, log ++ [mbid r])
      else
        let ac := match Artist.artist_credit_id a with
                  | Some c => c | None => 0 end in
        if include then
          (if mem_Z ac artist_credit_ids
           then (results ++ [r], log) else (results, log))
        else
          (if negb (mem_Z ac artist_credit_ids)
           then (results ++ [r], log) else (results, log))
  end.

(** The results list together with the mbids passed to [self.debug]. *)
Definition ArtistCreditFilter_read (recordings : list Recording)
  : list Recording * list string :=
  fold_left acf_step recordings ([], []).
End ArtistCreditFilter.

(** ** ArtistCreditLimiterElement.read *)

(** Outcome of a [read] that may raise. *)
Inductive result (A : Type) : Type :=
| Ok (a : A)
| PipelineError
| AttributeError.
Arguments Ok {A} a.
Arguments PipelineError {A}.
Arguments AttributeError {A}.

(** An entry [(rec.mbid, rec.ranking)] of [ac_index]. *)
Definition entry : Type := (string * option Z)%type.

(** [ac_index]: a [defaultdict(list)] keyed by [artist_credit_id], kept
    as an association list in key insertion order. *)
Definition index : Type := list (option Z * list entry).

Definition optZ_eqb (a b : option Z) : bool :=
  match a, b with
  | None, None => true
  | Some x, Some y => Z.eqb x y
  | _, _ => false
  end.

(** [ac_index[k].append(e)] *)
Fixpoint ac_append (k : option Z) (e : entry) (idx : index) : index :=
  match idx with
  | [] => [(k, [e])]
  | (k', g) :: t =>
      if optZ_eqb k k' then (k', g ++ [e]) :: t
      else (k', g) :: ac_append k e t
  end.

(** The first loop of [read]: builds [ac_index] and [all_have_rankings].
    [rec.artist.artist_credit_id] on [rec.artist = None] raises
    [AttributeError], which the [except KeyError] clause does not
    catch. *)
Fixpoint build_index (recs : list Recording) (idx : index)
    (all_have_rankings : bool) : result (index * bool) :=
  match recs with
  | [] => Ok (idx, all_have_rankings)
  | rec :: t =>
      match artist rec with
      | None => AttributeError
      | Some a =>
          let idx' := ac_append (Artist.artist_credit_id a)
                        (mbid rec, ranking rec) idx in
          let all' := match ranking rec with
                      | None => false
                      | Some _ => all_have_rankings
                      end in
          build_index t idx' all'
      end
  end.

(** [key=itemgetter(1)]: comparison of rankings.  The sort runs only when
    all rankings are present. *)
Definition rank_le (a b : option Z) : bool :=
  match a, b with
  | Some x, Some y => x <=? y
  | _, _ => true
  end.

(** Python's [sorted] is stable, also with [reverse=True]: an earlier
    entry stays before a later one with an equal key.  [before x y] says
    that the earlier entry [x] stays in front of [y]. *)
Definition before (reverse : bool) (x y : entry) : bool :=
  if reverse then rank_le (snd y) (snd x) else rank_le (snd x) (snd y).

Fixpoint insert_by (reverse : bool) (x : entry) (l : list entry)
    : list entry :=
  match l with
  | [] => [x]
  | y :: t => if before reverse x y then x :: y :: t
              else y :: insert_by reverse x t
  end.

(** [sorted(g, key=itemgetter(1), reverse=reverse)] *)
Fixpoint sorted_by (reverse : bool) (l : list entry) : list entry :=
  match l with
  | [] => []
  | x :: t => insert_by reverse x (sorted_by reverse t)
  end.

(** [l[:n]] with Python's slice semantics (a negative [n] counts from
    the end). *)
Definition py_slice_to {A} (l : list A) (n : Z) : list A :=
  if 0 <=? n then firstn (Z.to_nat n) l
  else firstn (Z.to_nat (Z.of_nat (List.length l) + n)) l.

Section Limiter.
(** [random.shuffle], applied in place to the group of key [k]. *)
Variable shuffle : option Z -> list entry -> list entry.
Variable count : Z.
Variable exclude_lower_ranked : bool.

(** The body of the second loop for one key. *)
Definition order_group (all_have_rankings : bool) (k : option Z)
    (g : list entry) : list entry :=
  let g' := if all_have_rankings then sorted_by exclude_lower_ranked g
            else shuffle k g in
  py_slice_to g' count.

Definition limit_index (all_have_rankings : bool) (idx : index) : index :=
  map (fun '(k, g) => (k, order_group all_have_rankings k g)) idx.

(** [pass_recs] *)
Definition pass_recs (idx : index) : list string :=
  concat (map (fun '(_, g) => map fst g) idx).

Definition ArtistCreditLimiter_read (recordings : list Recording)
  : result (list Recording) :=
  match build_index recordings [] true with
  | Ok (idx, all) =>
      let pass := pass_recs (limit_index all idx) in
      Ok (filter (fun r => mem_str (mbid r) pass) recordings)
  | PipelineError => PipelineError
  | AttributeError => AttributeError
  end.
End Limiter.

(** ** DuplicateRecordingFilterElement.read *)

Fixpoint dedup_from (seen : list string) (recs : list Recording)
    : list Recording :=
  match recs with
  | [] => []
  | rec :: t =>
      if negb (mem_str (mbid rec) seen)
      then rec :: dedup_from (mbid rec :: seen) t
      else dedup_from seen t
  end.

Definition DuplicateRecordingFilter_read (recs : list Recording)
  : list Recording := dedup_from [] recs.

(** ** ConsecutiveRecordingFilterElement.read *)

Fixpoint consecutive_from (last_mbid : option string)
    (recs : list Recording) : list Recording :=
  match recs with
  | [] => []
  | rec :: t =>
      let keep := match last_mbid with
                  | None => true
                  | Some m => negb (String.eqb (mbid rec) m)
                  end in
      if keep then rec :: consecutive_from (Some (mbid rec)) t
      else consecutive_from (Some (mbid rec)) t
  end.

Definition ConsecutiveRecordingFilter_read (recs : list Recording)
  : list Recording := consecutive_from None recs.

(** ** EmptyRecordingFilterElement.read *)

(** [rec.name is None or (rec.artist and rec.artist.name is None)] *)
Definition empty_metadata (rec : Recording) : bool :=
  match name rec with
  | None => true
  | Some _ =>
      match artist rec with
      | None => false
      | Some a => match Artist.name a with None => true | Some _ => false end
      end
  end.

Fixpoint EmptyRecordingFilter_read (recs : list Recording)
    : list Recording :=
  match recs with
  | [] => []
  | rec :: t =>
      if empty_metadata rec then EmptyRecordingFilter_read t
      else rec :: EmptyRecordingFilter_read t
  end.

(** ** YearRangeFilterElement.read *)

Section YearRange.
Variables start_year end_year : Z.
Variable inverse : bool.

Definition year_keep (r : Recording) : bool :=
  match year r with
  | None => false
  | Some y =>
      if y =? 0 then false
      else if inverse then (y <? start_year) || (end_year <? y)
      else (start_year <=? y) && (y <=? end_year)
  end.

Fixpoint YearRangeFilter_read (recs : list Recording) : list Recording :=
  match recs with
  | [] => []
  | r :: t => if year_keep r then r :: YearRangeFilter_read t
              else YearRangeFilter_read t
  end.
End YearRange.

(** ** Reading of the claims *)

(** The artist-credit filter as the spec states it, with the credit
    [0] (falsy in Python) counted as absent. *)
Definition acf_skipped (r : Recording) : bool :=
  match artist r with
  | None => true
  | Some a => negb (truthy_int (Artist.artist_credit_id a))
  end.

Definition acf_passes (ids : list Z) (include : bool) (r : Recording) : bool :=
  match artist r with
  | Some (Artist.mk (Some c) _) =>
      negb (c =? 0) && (if include then mem_Z c ids else negb (mem_Z c ids))
  | _ => false
  end.

(** The consecutive filter as the spec states it: each element is paired
    with the previous input element and dropped when their mbids agree. *)
Definition consecutive_spec (l : list Recording) : list Recording :=
  map fst
    (filter (fun '(r, prev) =>
               match prev with
               | None => true
               | Some p => negb (String.eqb (mbid r) (mbid p))
               end)
       (combine l (None :: map Some l))).

(** The key [rec.artist.artist_credit_id] under which the limiter files a
    recording. *)
Definition rec_credit (r : Recording) : option Z :=
  match artist r with
  | Some a => Artist.artist_credit_id a
  | None => None
  end.

(** The index entry of a recording. *)
Definition entry_of (r : Recording) : entry := (mbid r, ranking r).

(** [ac_index[k]] read back from the association list ([[]] when the key
    is missing, as a [defaultdict(list)] gives). *)
Fixpoint group_lookup (k : option Z) (idx : index) : list entry :=
  match idx with
  | [] => []
  | (k', g) :: t => if optZ_eqb k k' then g else group_lookup k t
  end.

(** ** Sample recordings *)

Definition sample_artist (c : option Z) : Artist.t :=
  Artist.mk c (Some "artist"%string).

Definition sample_rec (m : string) (c : option Z) (y rk : option Z)
  : Recording :=
  mkRecording m (Some "title"%string) y rk (Some (sample_artist c)).

(** ** Helper lemmas *)

Lemma mem_Z_In (x : Z) (xs : list Z) : mem_Z x xs = true <-> In x xs.
Proof.
  unfold mem_Z. rewrite existsb_exists. split.
  - intros [y [Hy Heq]]. apply Z.eqb_eq in Heq. subst. exact Hy.
  - intros H. exists x. split; [exact H | apply Z.eqb_refl].
Qed.

Lemma mem_str_In (x : string) (xs : list string) :
  mem_str x xs = true <-> In x xs.
Proof.
  unfold mem_str. rewrite existsb_exists. split.
  - intros [y [Hy Heq]]. apply String.eqb_eq in Heq. subst. exact Hy.
  - intros H. exists x. split; [exact H | apply String.eqb_refl].
Qed.

Lemma acf_fold (ids : list Z) (include : bool) (recs : list Recording)
    (res : list Recording) (log : list string) :
  fold_left (acf_step ids include) recs (res, log)
  = (res ++ filter (acf_passes ids include) recs,
     log ++ map mbid (filter acf_skipped recs)).
Proof.
  revert res log. induction recs as [|r t IH]; intros res log; simpl.
  - now rewrite !app_nil_r.
  - unfold acf_skipped, acf_passes at 1.
    destruct (artist r) as [[[c|] an]|]; simpl.
    + destruct (c =? 0) eqn:E0; simpl.
      * rewrite IH. now rewrite <- app_assoc.
      * destruct include; destruct (mem_Z c ids); simpl;
          rewrite IH; now rewrite <- ?app_assoc.
    + rewrite IH. now rewrite <- app_assoc.
    + rewrite IH. now rewrite <- app_assoc.
Qed.

Lemma year_filter_eq (s e : Z) (inv : bool) (recs : list Recording) :
  YearRangeFilter_read s e inv recs = filter (year_keep s e inv) recs.
Proof. induction recs as [|r t IH]; simpl; [reflexivity | now rewrite IH]. Qed.

Lemma empty_filter_eq (recs : list Recording) :
  EmptyRecordingFilter_read recs
  = filter (fun r => negb (empty_metadata r)) recs.
Proof.
  induction recs as [|r t IH]; simpl; [reflexivity|].
  now destruct (empty_metadata r); rewrite IH.
Qed.

Lemma consecutive_from_spec (prev : option Recording) (l : list Recording) :
  consecutive_from (option_map mbid prev) l
  = map fst
      (filter (fun '(r, prev) =>
                 match prev with
                 | None => true
                 | Some p => negb (String.eqb (mbid r) (mbid p))
                 end)
         (combine l (prev :: map Some l))).
Proof.
  revert prev. induction l as [|x t IH]; intros prev; simpl; [reflexivity|].
  destruct prev as [p|]; simpl.
  - destruct (String.eqb (mbid x) (mbid p)); simpl;
      rewrite <- (IH (Some x)); reflexivity.
  - rewrite <- (IH (Some x)). reflexivity.
Qed.

(** ** Claims *)

(** C1 (code_bug): the limiter does not fail with [PipelineError] on an
    unattributable recording.  A recording whose artist has no
    [artist_credit_id] is filed under the key [None] and passes through;
    a recording with no artist raises [AttributeError], which the
    [except KeyError] clause does not turn into [PipelineError]. *)
Theorem limiter_unattributable_not_pipeline_error :
  forall shuffle,
    ArtistCreditLimiter_read shuffle 2 true
      [sample_rec "r1" None (Some 2000) (Some 1)]
    = Ok [sample_rec "r1" None (Some 2000) (Some 1)]
  /\ ArtistCreditLimiter_read shuffle 2 true
      [mkRecording "r2" (Some "title"%string) (Some 2000) (Some 1) None]
    = AttributeError.
Proof. intros shuffle. split; reflexivity. Qed.

(** C5 (counterexample): a recording whose credit id is present but [0]
    is skipped, also with [include = false] and an empty identifier set. *)
Lemma artist_credit_filter_zero_credit_skipped :
  ArtistCreditFilter_read [] false [sample_rec "r0" (Some 0) None None]
  = ([], ["r0"%string]).
Proof. reflexivity. Qed.

(** C5 (amended): the artist-credit filter skips, with a debug message,
    every recording whose artist or credit id is absent or whose credit id
    is [0]; every other recording with credit id [c] is kept exactly when
    ([include] and [c] is in the set) or (not [include] and [c] is not in
    the set); the output is the input filtered in order. *)
Theorem artist_credit_filter_spec (ids : list Z) (include : bool)
    (recs : list Recording) :
  ArtistCreditFilter_read ids include recs
  = (filter (acf_passes ids include) recs,
     map mbid (filter acf_skipped recs))
  /\ (forall r, In r (fst (ArtistCreditFilter_read ids include recs)) <->
        In r recs /\
        exists c an, artist r = Some (Artist.mk (Some c) an) /\ c <> 0 /\
          ((include = true /\ In c ids) \/ (include = false /\ ~ In c ids))).
Proof.
  assert (Heq : ArtistCreditFilter_read ids include recs
                = (filter (acf_passes ids include) recs,
                   map mbid (filter acf_skipped recs))).
  { unfold ArtistCreditFilter_read. now rewrite acf_fold. }
  split; [exact Heq|]. intros r. rewrite Heq. simpl. rewrite filter_In.
  unfold acf_passes.
  destruct (artist r) as [[[c|] an]|].
  - split.
    + intros [Hin Hp]. split; [exact Hin|]. exists c, an. split; [reflexivity|].
      apply andb_true_iff in Hp as [H0 Hp]. apply negb_true_iff, Z.eqb_neq in H0.
      split; [exact H0|].
      destruct include.
      * left. split; [reflexivity|]. now apply mem_Z_In.
      * right. split; [reflexivity|]. intros Hc. apply mem_Z_In in Hc.
        now rewrite Hc in Hp.
    + intros [Hin [c' [an' [Ha [H0 Hsel]]]]]. injection Ha as <- <-.
      split; [exact Hin|]. apply andb_true_iff. split.
      * now apply negb_true_iff, Z.eqb_neq.
      * destruct Hsel as [[-> Hc] | [-> Hc]].
        -- now apply mem_Z_In.
        -- apply negb_true_iff. destruct (mem_Z c ids) eqn:E; [|reflexivity].
           apply mem_Z_In in E. contradiction.
  - split; [intros [_ H]; discriminate|].
    intros [_ [c [an' [Ha _]]]]. discriminate.
  - split; [intros [_ H]; discriminate|].
    intros [_ [c [an' [Ha _]]]]. discriminate.
Qed.

(** C6 (counterexample): with [start_year = -10], [end_year = 10] and
    [inverse = false], a recording of year [0] is dropped although
    [-10 <= 0 <= 10]. *)
Lemma year_range_zero_year_dropped :
  YearRangeFilter_read (-10) 10 false
    [sample_rec "r0" (Some 1) (Some 0) None] = [].
Proof. reflexivity. Qed.

(** C6 (amended): the year-range filter drops every recording whose year
    is absent or [0]; for another year [y] it keeps the recording exactly
    when [start_year <= y <= end_year] ([inverse = false]) or
    [y < start_year \/ y > end_year] ([inverse = true]); the output is the
    input filtered in order. *)
Theorem year_range_filter_spec (s e : Z) (inv : bool)
    (recs : list Recording) :
  YearRangeFilter_read s e inv recs = filter (year_keep s e inv) recs
  /\ (forall r, In r (YearRangeFilter_read s e inv recs) <->
        In r recs /\
        exists y, year r = Some y /\ y <> 0 /\
          ((inv = false /\ s <= y <= e) \/ (inv = true /\ (y < s \/ y > e)))).
Proof.
  split; [apply year_filter_eq|]. intros r.
  rewrite year_filter_eq, filter_In. unfold year_keep.
  destruct (year r) as [y|].
  - destruct (Z.eqb_spec y 0) as [->|Hy].
    + split; [intros [_ H]; discriminate|].
      intros [_ [y' [Hy' [H0 _]]]]. injection Hy' as <-. contradiction.
    + split.
      * intros [Hin Hk]. split; [exact Hin|]. exists y.
        split; [reflexivity|]. split; [exact Hy|].
        destruct inv.
        -- right. split; [reflexivity|].
           apply orb_true_iff in Hk as [Hk|Hk]; [apply Z.ltb_lt in Hk|apply Z.ltb_lt in Hk]; lia.
        -- left. split; [reflexivity|].
           apply andb_true_iff in Hk as [H1 H2].
           apply Z.leb_le in H1. apply Z.leb_le in H2. lia.
      * intros [Hin [y' [Hy' [_ Hsel]]]]. injection Hy' as <-.
        split; [exact Hin|].
        destruct Hsel as [[-> Hr] | [-> Hr]].
        -- apply andb_true_iff. split; apply Z.leb_le; lia.
        -- apply orb_true_iff. destruct Hr; [left|right]; apply Z.ltb_lt; lia.
  - split; [intros [_ H]; discriminate|].
    intros [_ [y' [Hy' _]]]. discriminate.
Qed.

(** C10: a recording whose year is present but [0] is dropped by the
    year-range filter in both modes, whatever the range. *)
Theorem year_range_zero_year_excluded (s e : Z) (inv : bool)
    (recs : list Recording) (r : Recording) (H0 : year r = Some 0) :
  ~ In r (YearRangeFilter_read s e inv recs).
Proof.
  rewrite year_filter_eq, filter_In. unfold year_keep. rewrite H0.
  simpl. intros [_ H]. discriminate.
Qed.

Lemma year_range_zero_year_excluded_witness :
  year (sample_rec "r0" (Some 1) (Some 0) None) = Some 0
  /\ ~ In (sample_rec "r0" (Some 1) (Some 0) None)
         (YearRangeFilter_read (-5) 5 true
            [sample_rec "r0" (Some 1) (Some 0) None]).
Proof.
  split; [reflexivity|].
  apply (year_range_zero_year_excluded (-5) 5 true
           [sample_rec "r0" (Some 1) (Some 0) None]).
  reflexivity.
Defined.

(** C7: the consecutive filter drops exactly the recordings whose mbid
    equals the mbid of the previous input element; on
    [A, A, A, B, B, A, C] it returns [A, B, A, C]. *)
Theorem consecutive_filter_spec (l : list Recording) :
  ConsecutiveRecordingFilter_read l = consecutive_spec l
  /\ map mbid (ConsecutiveRecordingFilter_read
       (map (fun m => sample_rec m (Some 1) None None)
          ["A"; "A"; "A"; "B"; "B"; "A"; "C"]%string))
     = ["A"; "B"; "A"; "C"]%string.
Proof.
  split; [|reflexivity].
  exact (consecutive_from_spec None l).
Qed.

(** C9: the empty-metadata filter drops a recording without a name, and
    a named recording whose present artist has no name; it keeps a named
    recording without an artist; the output is the input filtered in
    order. *)
Theorem empty_metadata_filter_spec (recs : list Recording) :
  EmptyRecordingFilter_read recs
  = filter (fun r => negb (empty_metadata r)) recs
  /\ (forall r, name r = None -> ~ In r (EmptyRecordingFilter_read recs))
  /\ (forall r a, name r <> None -> artist r = Some a -> Artist.name a = None ->
        ~ In r (EmptyRecordingFilter_read recs))
  /\ (forall r, name r <> None -> artist r = None -> In r recs ->
        In r (EmptyRecordingFilter_read recs)).
Proof.
  rewrite empty_filter_eq. split; [reflexivity|]. split; [|split].
  - intros r Hn. rewrite filter_In. unfold empty_metadata. rewrite Hn.
    intros [_ H]. discriminate.
  - intros r a Hn Ha Han. rewrite filter_In. unfold empty_metadata.
    destruct (name r) as [n|]; [|contradiction].
    rewrite Ha, Han. intros [_ H]. discriminate.
  - intros r Hn Ha Hin. rewrite filter_In. unfold empty_metadata.
    destruct (name r) as [n|]; [|contradiction].
    rewrite Ha. split; [exact Hin | reflexivity].
Qed.

Lemma dedup_from_sound (seen : list string) (l : list Recording) :
  NoDup (map mbid (dedup_from seen l))
  /\ (forall x, In x (dedup_from seen l) -> ~ In (mbid x) seen /\ In x l).
Proof.
  revert seen. induction l as [|r t IH]; intros seen; simpl.
  - split; [constructor | tauto].
  - destruct (mem_str (mbid r) seen) eqn:Hm; simpl.
    + destruct (IH seen) as [Hnd Hin]. split; [exact Hnd|].
      intros x Hx. destruct (Hin x Hx) as [H1 H2]. tauto.
    + destruct (IH (mbid r :: seen)) as [Hnd Hin]. split.
      * constructor; [|exact Hnd].
        intros Hx. apply in_map_iff in Hx as [x [Hxr Hx]].
        destruct (Hin x Hx) as [H1 _]. apply H1. rewrite Hxr. now left.
      * intros x [<-|Hx].
        -- split; [|now left]. intros Hs.
           apply (mem_str_In (mbid r) seen) in Hs. congruence.
        -- destruct (Hin x Hx) as [H1 H2]. split; [|now right].
           intros Hs. apply H1. now right.
Qed.

Lemma dedup_from_id (seen : list string) (l : list Recording) :
  NoDup (map mbid l) -> (forall x, In x l -> ~ In (mbid x) seen) ->
  dedup_from seen l = l.
Proof.
  revert seen. induction l as [|r t IH]; intros seen Hnd Hs; simpl; [reflexivity|].
  inversion Hnd as [|? ? Hr Hnd']. subst.
  destruct (mem_str (mbid r) seen) eqn:Hm.
  - exfalso. apply (Hs r (or_introl eq_refl)). now apply mem_str_In.
  - simpl. f_equal. apply IH; [exact Hnd'|].
    intros x Hx [Heq|Hin].
    + apply Hr. rewrite Heq. now apply in_map.
    + exact (Hs x (or_intror Hx) Hin).
Qed.

Lemma dedup_from_first (seen : list string) (l : list Recording) (x : Recording) :
  In x (dedup_from seen l) ->
  exists l1 l2, l = l1 ++ x :: l2 /\ ~ In (mbid x) (map mbid l1).
Proof.
  revert seen. induction l as [|r t IH]; intros seen Hx; simpl in Hx; [contradiction|].
  destruct (mem_str (mbid r) seen) eqn:Hm; simpl in Hx.
  - destruct (dedup_from_sound seen t) as [_ Hsnd].
    destruct (Hsnd x Hx) as [Hxs _].
    destruct (IH seen Hx) as [l1 [l2 [-> Hn]]].
    exists (r :: l1), l2. split; [reflexivity|].
    intros [Heq|Hin]; [|contradiction].
    apply Hxs. rewrite <- Heq. now apply mem_str_In.
  - destruct Hx as [<-|Hx].
    + exists [], t. split; [reflexivity | intros []].
    + destruct (dedup_from_sound (mbid r :: seen) t) as [_ Hsnd].
      destruct (Hsnd x Hx) as [Hxs _].
      destruct (IH (mbid r :: seen) Hx) as [l1 [l2 [-> Hn]]].
      exists (r :: l1), l2. split; [reflexivity|].
      intros [Heq|Hin]; [|contradiction].
      apply Hxs. left. exact Heq.
Qed.

(** C8: the duplicate filter is idempotent; its output has pairwise
    distinct mbids and each kept recording is the first occurrence of its
    mbid in the input. *)
Theorem duplicate_filter_idempotent (l : list Recording) :
  DuplicateRecordingFilter_read (DuplicateRecordingFilter_read l)
  = DuplicateRecordingFilter_read l
  /\ NoDup (map mbid (DuplicateRecordingFilter_read l))
  /\ (forall x, In x (DuplicateRecordingFilter_read l) ->
        exists l1 l2, l = l1 ++ x :: l2 /\ ~ In (mbid x) (map mbid l1)).
Proof.
  unfold DuplicateRecordingFilter_read.
  destruct (dedup_from_sound [] l) as [Hnd _].
  split; [|split; [exact Hnd|]].
  - apply dedup_from_id; [exact Hnd|]. intros x _ [].
  - intros x Hx. exact (dedup_from_first [] l x Hx).
Qed.

(** ** The artist-credit limiter *)

Lemma optZ_eqb_reflect (a b : option Z) : reflect (a = b) (optZ_eqb a b).
Proof.
  destruct a as [x|], b as [y|]; simpl; try (constructor; congruence).
  destruct (Z.eqb_spec x y); constructor; congruence.
Qed.

Lemma ac_append_lookup (k k' : option Z) (e : entry) (idx : index) :
  group_lookup k (ac_append k' e idx)
  = group_lookup k idx ++ (if optZ_eqb k k' then [e] else []).
Proof.
  induction idx as [|[k'' g] t IH]; simpl.
  - destruct (optZ_eqb k k'); reflexivity.
  - destruct (optZ_eqb_reflect k' k'') as [<-|Hne]; simpl.
    + destruct (optZ_eqb_reflect k k'); [reflexivity|].
      now rewrite app_nil_r.
    + destruct (optZ_eqb_reflect k k'') as [->|Hne2].
      * destruct (optZ_eqb_reflect k'' k'); [congruence|].
        now rewrite app_nil_r.
      * exact IH.
Qed.

Lemma ac_append_keys (k : option Z) (e : entry) (idx : index) (j : option Z) :
  In j (map fst (ac_append k e idx)) <-> In j (map fst idx) \/ j = k.
Proof.
  induction idx as [|[k'' g] t IH]; simpl.
  - intuition.
  - destruct (optZ_eqb_reflect k k'') as [<-|Hne]; simpl; rewrite ?IH; intuition.
Qed.

Lemma ac_append_nodup (k : option Z) (e : entry) (idx : index) :
  NoDup (map fst idx) -> NoDup (map fst (ac_append k e idx)).
Proof.
  induction idx as [|[k'' g] t IH]; simpl; intros Hnd.
  - constructor; [intros [] | constructor].
  - inversion Hnd as [|? ? Hn Hnd']. subst.
    destruct (optZ_eqb_reflect k k'') as [<-|Hne]; simpl.
    + constructor; assumption.
    + constructor; [|now apply IH].
      rewrite ac_append_keys. intros [H|H]; [contradiction | congruence].
Qed.

Lemma lookup_in (idx : index) (k : option Z) (g : list entry) :
  NoDup (map fst idx) -> In (k, g) idx -> group_lookup k idx = g.
Proof.
  induction idx as [|[k' g'] t IH]; simpl; intros Hnd Hin; [contradiction|].
  inversion Hnd as [|? ? Hn Hnd']. subst.
  destruct Hin as [Heq|Hin].
  - injection Heq as -> ->. destruct (optZ_eqb_reflect k k); congruence.
  - destruct (optZ_eqb_reflect k k') as [->|Hne].
    + exfalso. apply Hn. change k' with (fst (k', g)). now apply in_map.
    + now apply IH.
Qed.

Lemma build_index_lookup (recs : list Recording) (idx0 idx : index)
    (b b' : bool) :
  build_index recs idx0 b = Ok (idx, b') -> NoDup (map fst idx0) ->
  NoDup (map fst idx)
  /\ forall k, group_lookup k idx
       = group_lookup k idx0
         ++ map entry_of (filter (fun r => optZ_eqb k (rec_credit r)) recs).
Proof.
  revert idx0 b. induction recs as [|r t IH]; intros idx0 b Hb Hnd; simpl in Hb.
  - injection Hb as <- <-. split; [exact Hnd|]. intros k. simpl.
    now rewrite app_nil_r.
  - destruct (artist r) as [a|] eqn:Ha; [|discriminate].
    destruct (IH _ _ Hb (ac_append_nodup _ _ _ Hnd)) as [Hnd' Hk].
    split; [exact Hnd'|]. intros k. rewrite Hk, ac_append_lookup.
    simpl. unfold rec_credit at 2. rewrite Ha.
    destruct (optZ_eqb k (Artist.artist_credit_id a)); simpl;
      now rewrite <- app_assoc.
Qed.

Lemma build_index_total (recs : list Recording) (idx0 : index) (b : bool) :
  Forall (fun r => artist r <> None /\ ranking r <> None) recs ->
  exists idx, build_index recs idx0 b = Ok (idx, b).
Proof.
  revert idx0. induction recs as [|r t IH]; intros idx0 Hall; simpl.
  - now exists idx0.
  - inversion Hall as [|? ? [Ha Hr] Hall']. subst.
    destruct (artist r) as [a|]; [|congruence].
    destruct (ranking r) as [x|]; [|congruence].
    apply IH. exact Hall'.
Qed.

Lemma limiter_read_ok (shuffle : option Z -> list entry -> list entry)
    (count : Z) (excl : bool) (recs out : list Recording) :
  ArtistCreditLimiter_read shuffle count excl recs = Ok out ->
  exists idx all, build_index recs [] true = Ok (idx, all)
    /\ out = filter (fun r => mem_str (mbid r)
                 (pass_recs (limit_index shuffle count excl all idx))) recs.
Proof.
  unfold ArtistCreditLimiter_read.
  destruct (build_index recs [] true) as [[idx all]| |]; intros H;
    try discriminate.
  injection H as <-. now exists idx, all.
Qed.

Lemma pass_recs_In (idx : index) (m : string) :
  In m (pass_recs idx) <->
  exists k g, In (k, g) idx /\ In m (map fst g).
Proof.
  unfold pass_recs. rewrite in_concat. split.
  - intros [ms [Hms Hm]]. apply in_map_iff in Hms as [[k g] [<- Hkg]].
    now exists k, g.
  - intros [k [g [Hkg Hm]]]. exists (map fst g). split; [|exact Hm].
    apply in_map_iff. now exists (k, g).
Qed.

Lemma limit_index_In (shuffle : option Z -> list entry -> list entry)
    (count : Z) (excl all : bool) (idx : index) (k : option Z)
    (g' : list entry) :
  In (k, g') (limit_index shuffle count excl all idx) <->
  exists g, In (k, g) idx /\ g' = order_group shuffle count excl all k g.
Proof.
  unfold limit_index. rewrite in_map_iff. split.
  - intros [[k0 g] [Heq Hin]]. injection Heq as -> <-. now exists g.
  - intros [g [Hin ->]]. now exists (k, g).
Qed.

Lemma insert_by_perm (rv : bool) (x : entry) (l : list entry) :
  Permutation (insert_by rv x l) (x :: l).
Proof.
  induction l as [|y t IH]; simpl; [reflexivity|].
  destruct (before rv x y); [reflexivity|].
  rewrite IH. apply perm_swap.
Qed.

Lemma sorted_by_perm (rv : bool) (l : list entry) :
  Permutation (sorted_by rv l) l.
Proof.
  induction l as [|x t IH]; simpl; [reflexivity|].
  rewrite insert_by_perm. now apply perm_skip.
Qed.

Lemma before_total (rv : bool) (x y : entry) :
  before rv x y = false -> before rv y x = true.
Proof.
  unfold before, rank_le.
  destruct rv, (snd x) as [a|], (snd y) as [b|]; simpl; try discriminate;
    intros H; apply Z.leb_gt in H; apply Z.leb_le; lia.
Qed.

Lemma insert_by_sorted (rv : bool) (x : entry) (l : list entry) :
  Sorted (fun a b => before rv a b = true) l ->
  Sorted (fun a b => before rv a b = true) (insert_by rv x l).
Proof.
  induction l as [|y t IH]; simpl; intros Hs.
  - repeat constructor.
  - destruct (before rv x y) eqn:Hxy.
    + constructor; [exact Hs | now constructor].
    + apply Sorted_inv in Hs as [Ht Hhd].
      constructor; [now apply IH|].
      destruct t as [|z t']; simpl.
      * constructor. now apply before_total.
      * destruct (before rv x z); constructor.
        -- now apply before_total.
        -- now inversion Hhd.
Qed.

Lemma sorted_by_sorted (rv : bool) (l : list entry) :
  Sorted (fun a b => before rv a b = true) (sorted_by rv l).
Proof.
  induction l as [|x t IH]; simpl; [constructor|].
  now apply insert_by_sorted.
Qed.

Lemma py_slice_to_incl {A} (l : list A) (n : Z) : incl (py_slice_to l n) l.
Proof.
  unfold py_slice_to. intros x Hx.
  destruct (0 <=? n);
    [rewrite <- (firstn_skipn (Z.to_nat n) l)
    | rewrite <- (firstn_skipn (Z.to_nat (Z.of_nat (List.length l) + n)) l)];
    apply in_or_app; left; exact Hx.
Qed.

Lemma py_slice_to_length {A} (l : list A) (n : Z) :
  0 <= n -> (List.length (py_slice_to l n) <= Z.to_nat n)%nat.
Proof.
  intros Hn. unfold py_slice_to.
  destruct (Z.leb_spec 0 n); [|lia].
  apply firstn_le_length.
Qed.

Lemma py_slice_to_all {A} (l : list A) (n : Z) :
  Z.of_nat (List.length l) <= n -> py_slice_to l n = l.
Proof.
  intros Hn. unfold py_slice_to.
  destruct (Z.leb_spec 0 n); [|lia].
  apply firstn_all2. lia.
Qed.

Section OrderGroup.
Variable shuffle : option Z -> list entry -> list entry.
Hypothesis shuffle_perm : forall k l, Permutation (shuffle k l) l.

Lemma order_group_incl (count : Z) (excl all : bool) (k : option Z)
    (g : list entry) :
  incl (order_group shuffle count excl all k g) g.
Proof.
  unfold order_group. intros x Hx. apply py_slice_to_incl in Hx.
  destruct all.
  - eapply Permutation_in; [apply sorted_by_perm | exact Hx].
  - eapply Permutation_in; [apply shuffle_perm | exact Hx].
Qed.

Lemma order_group_small (count : Z) (excl all : bool) (k : option Z)
    (g : list entry) :
  Z.of_nat (List.length g) <= count ->
  Permutation (order_group shuffle count excl all k g) g.
Proof.
  intros Hn. unfold order_group. rewrite py_slice_to_all.
  - destruct all; [apply sorted_by_perm | apply shuffle_perm].
  - destruct all; [rewrite (Permutation_length (sorted_by_perm _ _))
                  | rewrite (Permutation_length (shuffle_perm _ _))]; exact Hn.
Qed.
End OrderGroup.

Lemma NoDup_map_filter {A B} (h : A -> B) (f : A -> bool) (l : list A) :
  NoDup (map h l) -> NoDup (map h (filter f l)).
Proof.
  induction l as [|x t IH]; simpl; intros Hnd; [constructor|].
  inversion Hnd as [|? ? Hn Hnd']. subst.
  destruct (f x); simpl; [|now apply IH].
  constructor; [|now apply IH].
  intros Hin. apply Hn. apply in_map_iff in Hin as [y [Hy Hin]].
  apply filter_In in Hin as [Hin _]. rewrite <- Hy. now apply in_map.
Qed.

Lemma mbid_inj (recs : list Recording) (r r' : Recording) :
  NoDup (map mbid recs) -> In r recs -> In r' recs -> mbid r = mbid r' ->
  r = r'.
Proof.
  induction recs as [|x t IH]; simpl; intros Hnd Hr Hr' Heq; [contradiction|].
  inversion Hnd as [|? ? Hn Hnd']. subst.
  destruct Hr as [<-|Hr], Hr' as [<-|Hr']; try reflexivity.
  - exfalso. apply Hn. rewrite Heq. now apply in_map.
  - exfalso. apply Hn. rewrite <- Heq. now apply in_map.
  - now apply IH.
Qed.

Lemma lookup_found (idx : index) (k : option Z) (e : entry) :
  In e (group_lookup k idx) -> In (k, group_lookup k idx) idx.
Proof.
  induction idx as [|[k' g] t IH]; simpl; intros He; [contradiction|].
  destruct (optZ_eqb_reflect k k') as [<-|Hne].
  - now left.
  - right. now apply IH.
Qed.

Lemma pass_recs_zero (shuffle : option Z -> list entry -> list entry)
    (excl all : bool) (idx : index) :
  pass_recs (limit_index shuffle 0 excl all idx) = [].
Proof.
  induction idx as [|[k g] t IH]; [reflexivity|].
  unfold pass_recs in *. simpl. unfold order_group, py_slice_to. simpl.
  exact IH.
Qed.

Lemma filter_none_passed (recs : list Recording) :
  filter (fun r => mem_str (mbid r) []) recs = [].
Proof. induction recs as [|r t IH]; [reflexivity | exact IH]. Qed.

Lemma limiter_cap_core (shuffle : option Z -> list entry -> list entry)
    (Hperm : forall k l, Permutation (shuffle k l) l)
    (count : Z) (excl : bool) (recs out : list Recording)
    (Hc : 0 <= count) (Hnd : NoDup (map mbid recs))
    (Hout : ArtistCreditLimiter_read shuffle count excl recs = Ok out)
    (k : option Z) :
  Z.of_nat (List.length (filter (fun r => optZ_eqb k (rec_credit r)) out))
  <= count.
Proof.
  destruct (limiter_read_ok _ _ _ _ _ Hout) as [idx [all [Hb ->]]].
  destruct (build_index_lookup _ _ _ _ _ Hb (NoDup_nil _)) as [Hndk Hlk].
  set (og := order_group shuffle count excl all k (group_lookup k idx)).
  set (F := filter (fun r => optZ_eqb k (rec_credit r))
              (filter (fun r => mem_str (mbid r)
                 (pass_recs (limit_index shuffle count excl all idx))) recs)).
  assert (Hincl : incl (map mbid F) (map fst og)).
  { intros m Hm. apply in_map_iff in Hm as [r [<- HrF]].
    unfold F in HrF. apply filter_In in HrF as [HrF Hk].
    apply filter_In in HrF as [Hr Hp].
    destruct (optZ_eqb_reflect k (rec_credit r)) as [Hkr|]; [|discriminate].
    apply mem_str_In, pass_recs_In in Hp as [j [g' [Hjg' Hm]]].
    apply limit_index_In in Hjg' as [g [Hjg ->]].
    pose proof (lookup_in _ _ _ Hndk Hjg) as Hg.
    apply in_map_iff in Hm as [e [He Heg]].
    pose proof (order_group_incl shuffle Hperm count excl all j g e Heg) as Heg0.
    rewrite <- Hg, Hlk in Heg0. simpl in Heg0.
    apply in_map_iff in Heg0 as [r' [Her' Hr']].
    apply filter_In in Hr' as [Hr' Hj].
    destruct (optZ_eqb_reflect j (rec_credit r')) as [Hjr'|]; [|discriminate].
    assert (Hrr : r = r').
    { apply (mbid_inj recs); try assumption.
      rewrite <- He, <- Her'. reflexivity. }
    subst r'. assert (Ejk : j = k) by congruence. rewrite Ejk in Hg, Heg.
    unfold og. rewrite Hg. apply in_map_iff. now exists e. }
  assert (HndF : NoDup (map mbid F)).
  { unfold F. now apply NoDup_map_filter, NoDup_map_filter. }
  pose proof (NoDup_incl_length HndF Hincl) as Hlen.
  rewrite !length_map in Hlen.
  assert (Hog : (List.length og <= Z.to_nat count)%nat).
  { unfold og, order_group. now apply py_slice_to_length. }
  change (Z.of_nat (List.length F) <= count).
  pose proof (Z2Nat.id count Hc). rewrite <- H. apply Nat2Z.inj_le. eapply Nat.le_trans; [exact Hlen | exact Hog].
Qed.

(** C2 (counterexample): with [count = 1] two recordings of one credit
    that share an mbid both survive, since the output is filtered by mbid. *)
Lemma limiter_cap_fails :
  ArtistCreditLimiter_read (fun _ l => l) 1 true
    [sample_rec "a" (Some 1) None (Some 5); sample_rec "a" (Some 1) None (Some 3)]
  = Ok [sample_rec "a" (Some 1) None (Some 5); sample_rec "a" (Some 1) None (Some 3)].
Proof. reflexivity. Qed.

(** C2 (amended): for [count >= 0] and pairwise distinct input mbids,
    every artist-credit key has at most [count] recordings in the
    limiter's output, whichever permutation the shuffle picks; input
    recordings that share an mbid are kept or dropped together. *)
Theorem limiter_cap (shuffle : option Z -> list entry -> list entry)
    (Hperm : forall k l, Permutation (shuffle k l) l)
    (count : Z) (excl : bool) (recs out : list Recording)
    (Hout : ArtistCreditLimiter_read shuffle count excl recs = Ok out) :
  (0 <= count -> NoDup (map mbid recs) ->
   forall k : option Z,
     Z.of_nat (List.length (filter (fun r => optZ_eqb k (rec_credit r)) out))
     <= count)
  /\ (forall r r', In r recs -> In r' recs -> mbid r = mbid r' ->
        In r out -> In r' out).
Proof.
  split.
  - intros Hc Hnd k. exact (limiter_cap_core shuffle Hperm count excl recs out
                              Hc Hnd Hout k).
  - intros r r' Hr Hr' Hm Hin.
    destruct (limiter_read_ok _ _ _ _ _ Hout) as [idx [all [_ ->]]].
    apply filter_In in Hin as [_ Hp]. apply filter_In. split; [exact Hr'|].
    rewrite <- Hm. exact Hp.
Qed.

Lemma limiter_cap_witness :
  (forall k l, Permutation ((fun (_ : option Z) (l : list entry) => l) k l) l)
  /\ Z.of_nat (List.length
       (filter (fun r => optZ_eqb (Some 1) (rec_credit r))
          [sample_rec "a" (Some 1) None None])) <= 1.
Proof.
  split; [intros k l; apply Permutation_refl|].
  apply (proj1 (limiter_cap (fun _ l => l) (fun k l => Permutation_refl l) 1 true
           [sample_rec "a" (Some 1) None None; sample_rec "b" (Some 1) None None]
           [sample_rec "a" (Some 1) None None] ltac:(vm_compute; reflexivity))).
  - lia.
  - repeat constructor; simpl; intuition discriminate.
Defined.

(** C3: when every recording has an artist and a ranking, each group is
    a stable sort of its members by ranking (descending when
    [exclude_lower_ranked], ascending otherwise) cut to [count]; the output
    is the input restricted, in input order, to the surviving mbids; with
    rankings 10, 5 and 1 under one credit and [count = 1],
    [exclude_lower_ranked = true] keeps the ranking-10 recording and
    [false] keeps the ranking-1 recording. *)
Theorem limiter_rank_direction (shuffle : option Z -> list entry -> list entry)
    (count : Z) (excl : bool) (recs : list Recording)
    (Hall : Forall (fun r => artist r <> None /\ ranking r <> None) recs) :
  (exists idx,
     build_index recs [] true = Ok (idx, true)
     /\ (forall k g', In (k, g') (limit_index shuffle count excl true idx) ->
           exists g, In (k, g) idx
             /\ g' = py_slice_to (sorted_by excl g) count
             /\ Permutation (sorted_by excl g) g
             /\ Sorted (fun a b => if excl then rank_le (snd b) (snd a) = true
                                   else rank_le (snd a) (snd b) = true)
                  (sorted_by excl g))
     /\ ArtistCreditLimiter_read shuffle count excl recs
        = Ok (filter (fun r => mem_str (mbid r)
                (pass_recs (limit_index shuffle count excl true idx))) recs))
  /\ ArtistCreditLimiter_read shuffle 1 true
       [sample_rec "r5" (Some 7) None (Some 5);
        sample_rec "r10" (Some 7) None (Some 10);
        sample_rec "r1" (Some 7) None (Some 1)]
     = Ok [sample_rec "r10" (Some 7) None (Some 10)]
  /\ ArtistCreditLimiter_read shuffle 1 false
       [sample_rec "r5" (Some 7) None (Some 5);
        sample_rec "r10" (Some 7) None (Some 10);
        sample_rec "r1" (Some 7) None (Some 1)]
     = Ok [sample_rec "r1" (Some 7) None (Some 1)].
Proof.
  split; [|split; reflexivity].
  destruct (build_index_total recs [] true Hall) as [idx Hb].
  exists idx. split; [exact Hb|]. split.
  - intros k g' Hin. apply limit_index_In in Hin as [g [Hg ->]].
    exists g. split; [exact Hg|]. split; [reflexivity|].
    split; [apply sorted_by_perm|].
    destruct excl; [exact (sorted_by_sorted true g) | exact (sorted_by_sorted false g)].
  - unfold ArtistCreditLimiter_read. now rewrite Hb.
Qed.

Lemma limiter_rank_direction_witness :
  Forall (fun r => artist r <> None /\ ranking r <> None)
    [sample_rec "x" (Some 1) None (Some 2); sample_rec "y" (Some 2) None (Some 3)]
  /\ exists idx,
       build_index
         [sample_rec "x" (Some 1) None (Some 2); sample_rec "y" (Some 2) None (Some 3)]
         [] true = Ok (idx, true).
Proof.
  assert (Hall : Forall (fun r => artist r <> None /\ ranking r <> None)
    [sample_rec "x" (Some 1) None (Some 2); sample_rec "y" (Some 2) None (Some 3)]).
  { repeat constructor; simpl; discriminate. }
  split; [exact Hall|].
  destruct (limiter_rank_direction (fun _ l => l) 1 true _ Hall)
    as [[idx [Hb _]] _].
  exists idx. exact Hb.
Defined.

(** C4 (code_bug): with [count = -1] the limiter's output is not empty:
    the slice [ac_index[key][:self.count]] drops only the last member of
    the group instead of all of them. *)
Lemma limiter_negative_count_nonempty :
  ArtistCreditLimiter_read (fun _ l => l) (-1) false
    [sample_rec "a" (Some 1) None (Some 5); sample_rec "b" (Some 1) None (Some 9)]
  = Ok [sample_rec "a" (Some 1) None (Some 5)].
Proof. reflexivity. Qed.

(** X13: with [count = 0] the limiter's output is empty; for every
    [count], a recording whose artist-credit group has at most [count]
    members is in the output, so such a group passes unchanged. *)
Theorem limiter_count_edges (shuffle : option Z -> list entry -> list entry)
    (Hperm : forall k l, Permutation (shuffle k l) l)
    (count : Z) (excl : bool) (recs out : list Recording)
    (Hout : ArtistCreditLimiter_read shuffle count excl recs = Ok out) :
  (count = 0 -> out = [])
  /\ (forall r, In r recs ->
        Z.of_nat (List.length
          (filter (fun r' => optZ_eqb (rec_credit r) (rec_credit r')) recs))
        <= count ->
        In r out).
Proof.
  destruct (limiter_read_ok _ _ _ _ _ Hout) as [idx [all [Hb ->]]].
  split.
  - intros ->. rewrite pass_recs_zero. apply filter_none_passed.
  - intros r Hr Hlen.
    destruct (build_index_lookup _ _ _ _ _ Hb (NoDup_nil _)) as [_ Hlk].
    set (k := rec_credit r) in *.
    assert (Hg : In (entry_of r) (group_lookup k idx)).
    { rewrite Hlk. simpl. apply in_map. apply filter_In. split; [exact Hr|].
      unfold k. destruct (optZ_eqb_reflect (rec_credit r) (rec_credit r));
        congruence. }
    pose proof (lookup_found _ _ _ Hg) as Hkg.
    apply filter_In. split; [exact Hr|]. apply mem_str_In, pass_recs_In.
    exists k, (order_group shuffle count excl all k (group_lookup k idx)).
    split.
    + apply limit_index_In. now exists (group_lookup k idx).
    + change (mbid r) with (fst (entry_of r)). apply in_map.
      eapply Permutation_in.
      * symmetry. apply order_group_small; [exact Hperm|].
        rewrite Hlk. simpl. now rewrite length_map.
      * exact Hg.
Qed.

Lemma limiter_count_edges_witness :
  ArtistCreditLimiter_read (fun _ l => l) 1 true
    [sample_rec "a" (Some 1) None (Some 5); sample_rec "b" (Some 2) None (Some 4)]
  = Ok [sample_rec "a" (Some 1) None (Some 5); sample_rec "b" (Some 2) None (Some 4)]
  /\ In (sample_rec "a" (Some 1) None (Some 5))
       [sample_rec "a" (Some 1) None (Some 5); sample_rec "b" (Some 2) None (Some 4)].
Proof.
  split; [reflexivity|].
  destruct (limiter_count_edges (fun _ l => l) (fun k l => Permutation_refl l)
              1 true
              [sample_rec "a" (Some 1) None (Some 5); sample_rec "b" (Some 2) None (Some 4)]
              [sample_rec "a" (Some 1) None (Some 5); sample_rec "b" (Some 2) None (Some 4)]
              ltac:(reflexivity)) as [_ H].
  apply H; [left; reflexivity | vm_compute; congruence].
Defined.

(** ** Further properties of the filters *)

Lemma build_index_outcome (recs : list Recording) (idx0 : index) (b : bool) :
  build_index recs idx0 b <> PipelineError
  /\ (build_index recs idx0 b = AttributeError <->
      exists r, In r recs /\ artist r = None).
Proof.
  revert idx0 b. induction recs as [|r t IH]; intros idx0 b; simpl.
  - split; [discriminate|]. split; [discriminate | intros [r [[] _]]].
  - destruct (artist r) as [a|] eqn:Ha.
    + destruct (IH (ac_append (Artist.artist_credit_id a) (mbid r, ranking r) idx0)
                  (match ranking r with None => false | Some _ => b end))
        as [Hp Ha'].
      split; [exact Hp|]. rewrite Ha'. split.
      * intros [r' [Hr' Hn]]. exists r'. tauto.
      * intros [r' [[<-|Hr'] Hn]]; [congruence|]. now exists r'.
    + split; [discriminate|]. split; [intros _; exists r; tauto | reflexivity].
Qed.

(** X1: the limiter never fails with [PipelineError]; it fails, with
    [AttributeError], exactly when some input recording has no artist. *)
Theorem limiter_error_outcome (shuffle : option Z -> list entry -> list entry)
    (count : Z) (excl : bool) (recs : list Recording) :
  ArtistCreditLimiter_read shuffle count excl recs <> PipelineError
  /\ (ArtistCreditLimiter_read shuffle count excl recs = AttributeError <->
      exists r, In r recs /\ artist r = None).
Proof.
  destruct (build_index_outcome recs [] true) as [Hp Ha].
  unfold ArtistCreditLimiter_read.
  destruct (build_index recs [] true) as [[idx all]| |].
  - split; [discriminate|]. rewrite <- Ha. split; discriminate.
  - contradiction.
  - split; [discriminate|]. rewrite <- Ha. tauto.
Qed.

Lemma build_index_rankings (recs : list Recording) (idx0 idx : index)
    (b b' : bool) :
  Forall (fun r => ranking r <> None) recs ->
  build_index recs idx0 b = Ok (idx, b') -> b' = b.
Proof.
  revert idx0 b. induction recs as [|r t IH]; intros idx0 b Hall Hb; simpl in Hb.
  - congruence.
  - inversion Hall as [|? ? Hr Hall']. subst.
    destruct (artist r) as [a|]; [|discriminate].
    destruct (ranking r) as [x|]; [|congruence].
    exact (IH _ _ Hall' Hb).
Qed.

(** X2: when every input recording has a ranking, the limiter's result
    does not depend on the shuffle: the random fallback is never used. *)
Theorem limiter_ranked_shuffle_irrelevant
    (shuffle1 shuffle2 : option Z -> list entry -> list entry)
    (count : Z) (excl : bool) (recs : list Recording)
    (Hall : Forall (fun r => ranking r <> None) recs) :
  ArtistCreditLimiter_read shuffle1 count excl recs
  = ArtistCreditLimiter_read shuffle2 count excl recs.
Proof.
  unfold ArtistCreditLimiter_read.
  destruct (build_index recs [] true) as [[idx all]| |] eqn:Hb; try reflexivity.
  rewrite (build_index_rankings _ _ _ _ _ Hall Hb).
  unfold limit_index, order_group. reflexivity.
Qed.

Lemma limiter_ranked_shuffle_irrelevant_witness :
  Forall (fun r => ranking r <> None)
    [sample_rec "a" (Some 1) None (Some 1); sample_rec "b" (Some 1) None (Some 2)]
  /\ ArtistCreditLimiter_read (fun _ l => l) 1 true
       [sample_rec "a" (Some 1) None (Some 1); sample_rec "b" (Some 1) None (Some 2)]
     = ArtistCreditLimiter_read (fun _ l => rev l) 1 true
       [sample_rec "a" (Some 1) None (Some 1); sample_rec "b" (Some 1) None (Some 2)].
Proof.
  assert (Hall : Forall (fun r => ranking r <> None)
    [sample_rec "a" (Some 1) None (Some 1); sample_rec "b" (Some 1) None (Some 2)]).
  { repeat constructor; simpl; discriminate. }
  split; [exact Hall|].
  exact (limiter_ranked_shuffle_irrelevant (fun _ l => l) (fun _ l => rev l)
           1 true _ Hall).
Defined.
Lemma limiter_small_group_kept (shuffle : option Z -> list entry -> list entry)
    (Hperm : forall k l, Permutation (shuffle k l) l)
    (count : Z) (excl : bool) (recs out : list Recording)
    (Hout : ArtistCreditLimiter_read shuffle count excl recs = Ok out)
    (r : Recording) (Hr : In r recs)
    (Hlen : Z.of_nat (List.length
              (filter (fun r' => optZ_eqb (rec_credit r) (rec_credit r')) recs))
            <= count) :
  In r out.
Proof.
  destruct (limiter_read_ok _ _ _ _ _ Hout) as [idx [all [Hb ->]]].
  destruct (build_index_lookup _ _ _ _ _ Hb (NoDup_nil _)) as [_ Hlk].
  set (k := rec_credit r) in *.
  assert (Hg : In (entry_of r) (group_lookup k idx)).
  { rewrite Hlk. simpl. apply in_map. apply filter_In. split; [exact Hr|].
    unfold k. destruct (optZ_eqb_reflect (rec_credit r) (rec_credit r));
      congruence. }
  apply filter_In. split; [exact Hr|]. apply mem_str_In, pass_recs_In.
  exists k, (order_group shuffle count excl all k (group_lookup k idx)).
  split.
  - apply limit_index_In. exists (group_lookup k idx). split; [|reflexivity].
    exact (lookup_found _ _ _ Hg).
  - change (mbid r) with (fst (entry_of r)). apply in_map.
    eapply Permutation_in.
    + symmetry. apply order_group_small; [exact Hperm|].
      rewrite Hlk. simpl. now rewrite length_map.
    + exact Hg.
Qed.

Lemma filter_all_true {A} (f : A -> bool) (l : list A) :
  (forall x, In x l -> f x = true) -> filter f l = l.
Proof.
  induction l as [|x t IH]; simpl; intros H; [reflexivity|].
  rewrite (H x (or_introl eq_refl)). f_equal. apply IH. intros y Hy.
  apply H. now right.
Qed.

Lemma filter_length_bound {A} (f : A -> bool) (l : list A) :
  (List.length (filter f l) <= List.length l)%nat.
Proof.
  induction l as [|x t IH]; simpl; [lia|]. destruct (f x); simpl; lia.
Qed.

(** X3: when [count] is at least the number of input recordings, the
    limiter returns its input unchanged (whichever order the shuffle
    picks). *)
Theorem limiter_large_count_identity
    (shuffle : option Z -> list entry -> list entry)
    (Hperm : forall k l, Permutation (shuffle k l) l)
    (count : Z) (excl : bool) (recs out : list Recording)
    (Hc : Z.of_nat (List.length recs) <= count)
    (Hout : ArtistCreditLimiter_read shuffle count excl recs = Ok out) :
  out = recs.
Proof.
  pose proof (limiter_small_group_kept shuffle Hperm count excl recs out Hout)
    as Hkeep.
  destruct (limiter_read_ok _ _ _ _ _ Hout) as [idx [all [Hb Hout']]].
  rewrite Hout' in Hkeep |- *. apply filter_all_true. intros r Hr.
  assert (Hin : In r (filter (fun r0 => mem_str (mbid r0)
            (pass_recs (limit_index shuffle count excl all idx))) recs)).
  { apply Hkeep; [exact Hr|].
    pose proof (filter_length_bound
      (fun r' => optZ_eqb (rec_credit r) (rec_credit r')) recs). lia. }
  apply filter_In in Hin. tauto.
Qed.

Lemma limiter_large_count_identity_witness :
  (forall k l, Permutation ((fun (_ : option Z) (l : list entry) => rev l) k l) l)
  /\ [sample_rec "a" (Some 1) None None; sample_rec "b" (Some 1) None None]
     = [sample_rec "a" (Some 1) None None; sample_rec "b" (Some 1) None None].
Proof.
  split; [intros k l; symmetry; apply Permutation_rev|].
  apply (limiter_large_count_identity (fun _ l => rev l)
           (fun k l => Permutation_sym (Permutation_rev l)) 2 false
           [sample_rec "a" (Some 1) None None; sample_rec "b" (Some 1) None None]).
  - simpl. lia.
  - vm_compute. reflexivity.
Defined.

(** X4: with [count >= 0] and pairwise distinct input mbids, running the
    limiter again on its own output returns that output unchanged, for
    any shuffles used by either run. *)
Theorem limiter_idempotent
    (shuffle1 shuffle2 : option Z -> list entry -> list entry)
    (Hperm1 : forall k l, Permutation (shuffle1 k l) l)
    (Hperm2 : forall k l, Permutation (shuffle2 k l) l)
    (count : Z) (excl : bool) (recs out : list Recording)
    (Hc : 0 <= count) (Hnd : NoDup (map mbid recs))
    (Hout : ArtistCreditLimiter_read shuffle1 count excl recs = Ok out) :
  ArtistCreditLimiter_read shuffle2 count excl out = Ok out.
Proof.
  destruct (limiter_read_ok _ _ _ _ _ Hout) as [idx [all [Hb Hout']]].
  assert (Hsub : forall r, In r out -> In r recs).
  { intros r Hr. rewrite Hout' in Hr. apply filter_In in Hr. tauto. }
  assert (Hndo : NoDup (map mbid out)).
  { rewrite Hout'. now apply NoDup_map_filter. }
  destruct (build_index_outcome out [] true) as [Hp Ha].
  destruct (build_index_outcome recs [] true) as [_ Ha0].
  assert (Hok : exists out', ArtistCreditLimiter_read shuffle2 count excl out
                             = Ok out').
  { unfold ArtistCreditLimiter_read.
    destruct (build_index out [] true) as [[idx' all']| |] eqn:Hb'.
    - eexists. reflexivity.
    - contradiction.
    - exfalso. destruct (proj1 Ha eq_refl) as [r [Hr Hn]].
      assert (Hx : build_index recs [] true = AttributeError).
      { apply Ha0. exists r. split; [now apply Hsub | exact Hn]. }
      congruence. }
  destruct Hok as [out' Hout2]. rewrite Hout2. f_equal.
  destruct (limiter_read_ok _ _ _ _ _ Hout2) as [idx2 [all2 [Hb2 Hout2']]].
  rewrite Hout2'. apply filter_all_true. intros r Hr.
  assert (Hin : In r out').
  { apply (limiter_small_group_kept shuffle2 Hperm2 count excl out out' Hout2 r Hr).
    exact (limiter_cap_core shuffle1 Hperm1 count excl recs out Hc Hnd Hout
             (rec_credit r)). }
  rewrite Hout2' in Hin. apply filter_In in Hin. tauto.
Qed.

Lemma limiter_idempotent_witness :
  NoDup (map mbid [sample_rec "a" (Some 1) (Some 1) None;
                   sample_rec "b" (Some 1) None None;
                   sample_rec "c" (Some 2) None None])
  /\ ArtistCreditLimiter_read (fun _ l => rev l) 1 true
       [sample_rec "b" (Some 1) None None; sample_rec "c" (Some 2) None None]
     = Ok [sample_rec "b" (Some 1) None None; sample_rec "c" (Some 2) None None].
Proof.
  split; [repeat constructor; simpl; intuition discriminate|].
  apply (limiter_idempotent (fun _ l => rev l) (fun _ l => rev l)
           (fun k l => Permutation_sym (Permutation_rev l))
           (fun k l => Permutation_sym (Permutation_rev l)) 1 true
           [sample_rec "a" (Some 1) (Some 1) None;
            sample_rec "b" (Some 1) None None;
            sample_rec "c" (Some 2) None None]).
  - lia.
  - repeat constructor; simpl; intuition discriminate.
  - vm_compute. reflexivity.
Defined.

Lemma consecutive_from_adjacent (last : option string) (l : list Recording) :
  Sorted (fun x y => mbid x <> mbid y) (consecutive_from last l)
  /\ (forall x, last = Some (mbid x) ->
        HdRel (fun x y => mbid x <> mbid y) x (consecutive_from last l)).
Proof.
  revert last. induction l as [|r t IH]; intros last; simpl.
  - split; [constructor | intros; constructor].
  - destruct (IH (Some (mbid r))) as [Hs Hhd].
    destruct last as [m|].
    + destruct (String.eqb_spec (mbid r) m) as [Heq|Hne]; simpl.
      * split; [exact Hs|]. intros x Hx. apply Hhd. congruence.
      * split; [constructor; [exact Hs | now apply Hhd]|].
        intros x Hx. constructor. injection Hx as Hx. congruence.
    + split; [constructor; [exact Hs | now apply Hhd]|]. discriminate.
Qed.

Lemma consecutive_from_id (x : Recording) (l : list Recording) :
  Sorted (fun x y => mbid x <> mbid y) l ->
  HdRel (fun x y => mbid x <> mbid y) x l ->
  consecutive_from (Some (mbid x)) l = l.
Proof.
  revert x. induction l as [|r t IH]; intros x Hs Hhd; simpl; [reflexivity|].
  apply Sorted_inv in Hs as [Ht Hhd'].
  inversion Hhd as [|? ? Hxr]. subst.
  destruct (String.eqb_spec (mbid r) (mbid x)) as [E|_]; [congruence|].
  simpl. f_equal. now apply IH.
Qed.

(** X5: no two adjacent recordings of the consecutive filter's output
    share an mbid, and applying the filter again changes nothing. *)
Theorem consecutive_filter_adjacent_idempotent (l : list Recording) :
  Sorted (fun x y => mbid x <> mbid y) (ConsecutiveRecordingFilter_read l)
  /\ ConsecutiveRecordingFilter_read (ConsecutiveRecordingFilter_read l)
     = ConsecutiveRecordingFilter_read l.
Proof.
  destruct (consecutive_from_adjacent None l) as [Hs _].
  split; [exact Hs|]. unfold ConsecutiveRecordingFilter_read in *.
  destruct (consecutive_from None l) as [|r t]; [reflexivity|].
  simpl. f_equal. apply Sorted_inv in Hs as [Ht Hhd].
  now apply consecutive_from_id.
Qed.

Lemma dedup_consecutive_from (seen : list string) (last : option string)
    (l : list Recording) :
  (forall m, last = Some m -> In m seen) ->
  dedup_from seen (consecutive_from last l) = dedup_from seen l.
Proof.
  revert seen last. induction l as [|r t IH]; intros seen last Hl; simpl;
    [reflexivity|].
  assert (Hkeep : forall seen', In (mbid r) seen' ->
            dedup_from seen' (consecutive_from (Some (mbid r)) t)
            = dedup_from seen' t).
  { intros seen' Hs. apply IH. intros m Hm. injection Hm as <-. exact Hs. }
  destruct last as [m|].
  - destruct (String.eqb_spec (mbid r) m) as [Heq|Hne]; simpl.
    + assert (Hr : mem_str (mbid r) seen = true).
      { apply mem_str_In. rewrite Heq. now apply Hl. }
      rewrite Hr. simpl. apply Hkeep. rewrite Heq. now apply Hl.
    + destruct (mem_str (mbid r) seen) eqn:Hr; simpl.
      * apply Hkeep. now apply mem_str_In.
      * f_equal. apply Hkeep. now left.
  - simpl. destruct (mem_str (mbid r) seen) eqn:Hr; simpl.
    + apply Hkeep. now apply mem_str_In.
    + f_equal. apply Hkeep. now left.
Qed.

(** X6: running the consecutive filter before the duplicate filter makes
    no difference: the pipeline Consecutive then Duplicate gives the same
    output as Duplicate alone. *)
Theorem duplicate_after_consecutive (l : list Recording) :
  DuplicateRecordingFilter_read (ConsecutiveRecordingFilter_read l)
  = DuplicateRecordingFilter_read l.
Proof.
  unfold DuplicateRecordingFilter_read, ConsecutiveRecordingFilter_read.
  apply dedup_consecutive_from. discriminate.
Qed.

(** X7: on an input whose mbids are pairwise distinct the duplicate filter
    returns its input unchanged. *)
Theorem duplicate_filter_distinct_identity (l : list Recording)
    (Hnd : NoDup (map mbid l)) :
  DuplicateRecordingFilter_read l = l.
Proof.
  apply dedup_from_id; [exact Hnd|]. intros x _ [].
Qed.

Lemma duplicate_filter_distinct_identity_witness :
  NoDup (map mbid [sample_rec "a" None None None; sample_rec "b" None None None])
  /\ DuplicateRecordingFilter_read
       [sample_rec "a" None None None; sample_rec "b" None None None]
     = [sample_rec "a" None None None; sample_rec "b" None None None].
Proof.
  assert (H : NoDup (map mbid [sample_rec "a" None None None;
                               sample_rec "b" None None None])).
  { repeat constructor; simpl; intuition discriminate. }
  split; [exact H|]. exact (duplicate_filter_distinct_identity _ H).
Defined.

(** X8: with an empty range ([start_year > end_year]) the year filter
    keeps nothing when [inverse] is false, and keeps every recording with
    a present, non-zero year when [inverse] is true. *)
Theorem year_range_empty_range (s e : Z) (recs : list Recording)
    (Hse : e < s) :
  YearRangeFilter_read s e false recs = []
  /\ YearRangeFilter_read s e true recs
     = filter (fun r => truthy_int (year r)) recs.
Proof.
  rewrite !year_filter_eq. split.
  - induction recs as [|r t IH]; simpl; [reflexivity|].
    unfold year_keep at 1. destruct (year r) as [y|]; [|exact IH].
    destruct (y =? 0); [exact IH|].
    destruct (Z.leb_spec s y), (Z.leb_spec y e); simpl; try exact IH; lia.
  - apply filter_ext. intros r. unfold year_keep, truthy_int.
    destruct (year r) as [y|]; [|reflexivity].
    destruct (y =? 0); [reflexivity|]. simpl.
    destruct (Z.ltb_spec y s); [reflexivity|]. simpl.
    apply Z.ltb_lt. lia.
Qed.

Lemma year_range_empty_range_witness :
  (5 < 10) /\ YearRangeFilter_read 10 5 false
                [sample_rec "a" None (Some 7) None] = [].
Proof.
  split; [lia|].
  exact (proj1 (year_range_empty_range 10 5 [sample_rec "a" None (Some 7) None]
                  ltac:(lia))).
Defined.

Lemma year_keep_cases (s e : Z) (r : Recording) :
  (year_keep s e false r = true /\ year_keep s e true r = false
   /\ truthy_int (year r) = true)
  \/ (year_keep s e false r = false /\ year_keep s e true r = true
      /\ truthy_int (year r) = true)
  \/ (year_keep s e false r = false /\ year_keep s e true r = false
      /\ truthy_int (year r) = false).
Proof.
  unfold year_keep, truthy_int. destruct (year r) as [y|]; [|tauto].
  destruct (y =? 0); simpl; [tauto|].
  destruct (Z.leb_spec s y), (Z.leb_spec y e), (Z.ltb_spec y s),
    (Z.ltb_spec e y); simpl; first [tauto | lia].
Qed.

(** X9: for the same range, the normal and the inverse year filter split
    the recordings with a present, non-zero year: each such input
    recording is kept by exactly one of them, every other one by neither,
    and the two output lengths add up to the number of such recordings. *)
Theorem year_range_partition (s e : Z) (recs : list Recording) :
  (forall r, In r recs ->
     (truthy_int (year r) = true ->
        (In r (YearRangeFilter_read s e false recs)
         /\ ~ In r (YearRangeFilter_read s e true recs))
        \/ (~ In r (YearRangeFilter_read s e false recs)
            /\ In r (YearRangeFilter_read s e true recs)))
     /\ (truthy_int (year r) = false ->
           ~ In r (YearRangeFilter_read s e false recs)
           /\ ~ In r (YearRangeFilter_read s e true recs)))
  /\ (List.length (YearRangeFilter_read s e false recs)
      + List.length (YearRangeFilter_read s e true recs)
      = List.length (filter (fun r => truthy_int (year r)) recs))%nat.
Proof.
  rewrite !year_filter_eq. split.
  - intros r Hr. rewrite !filter_In.
    destruct (year_keep_cases s e r) as [[-> [-> ->]]|[[-> [-> ->]]|[-> [-> ->]]]].
    + split; [|discriminate]. intros _. left. split; [tauto | intros [_ H]; discriminate].
    + split; [|discriminate]. intros _. right. split; [intros [_ H]; discriminate | tauto].
    + split; [discriminate|]. intros _. split; intros [_ H]; discriminate.
  - induction recs as [|r t IH]; simpl; [reflexivity|].
    destruct (year_keep_cases s e r) as [[-> [-> ->]]|[[-> [-> ->]]|[-> [-> ->]]]];
      simpl; lia.
Qed.

(** X10: for the same identifier set, the including and the excluding
    artist-credit filter log the same skipped recordings and split the
    others: the two outputs and the log together have exactly as many
    entries as the input. *)
Theorem artist_credit_filter_partition (ids : list Z) (recs : list Recording) :
  snd (ArtistCreditFilter_read ids true recs)
  = snd (ArtistCreditFilter_read ids false recs)
  /\ (List.length (fst (ArtistCreditFilter_read ids true recs))
      + List.length (fst (ArtistCreditFilter_read ids false recs))
      + List.length (snd (ArtistCreditFilter_read ids true recs))
      = List.length recs)%nat.
Proof.
  unfold ArtistCreditFilter_read. rewrite !acf_fold. simpl.
  split; [reflexivity|]. rewrite length_map.
  induction recs as [|r t IH]; simpl; [reflexivity|].
  assert (Hc : (acf_passes ids true r = true /\ acf_passes ids false r = false
                /\ acf_skipped r = false)
            \/ (acf_passes ids true r = false /\ acf_passes ids false r = true
                /\ acf_skipped r = false)
            \/ (acf_passes ids true r = false /\ acf_passes ids false r = false
                /\ acf_skipped r = true)).
  { unfold acf_passes, acf_skipped, truthy_int.
    destruct (artist r) as [[[c|] an]|]; simpl; try tauto.
    destruct (c =? 0); simpl; [tauto|].
    destruct (mem_Z c ids); simpl; tauto. }
  destruct Hc as [[-> [-> ->]]|[[-> [-> ->]]|[-> [-> ->]]]]; simpl; lia.
Qed.

(** X11: with an empty identifier set the including filter keeps nothing
    and the excluding filter keeps every recording that has an artist with
    a non-zero credit id. *)
Theorem artist_credit_filter_empty_ids (recs : list Recording) :
  fst (ArtistCreditFilter_read [] true recs) = []
  /\ fst (ArtistCreditFilter_read [] false recs)
     = filter (fun r => negb (acf_skipped r)) recs.
Proof.
  unfold ArtistCreditFilter_read. rewrite !acf_fold. simpl. split.
  - induction recs as [|r t IH]; simpl; [reflexivity|].
    unfold acf_passes at 1. destruct (artist r) as [[[c|] an]|]; simpl; try exact IH.
    rewrite andb_false_r. exact IH.
  - apply filter_ext. intros r. unfold acf_passes, acf_skipped, truthy_int.
    destruct (artist r) as [[[c|] an]|]; simpl; try reflexivity.
    now rewrite andb_true_r, negb_involutive.
Qed.

Lemma filter_filter_comm {A} (f g : A -> bool) (l : list A) :
  filter f (filter g l) = filter g (filter f l).
Proof.
  induction l as [|x t IH]; simpl; [reflexivity|].
  destruct (g x) eqn:Hg, (f x) eqn:Hf; simpl; rewrite ?Hg, ?Hf; congruence.
Qed.

(** X12: the year-range, empty-metadata and artist-credit filters commute
    with one another: any order of these stages gives the same output. *)
Theorem per_record_filters_commute (s e : Z) (inv : bool) (ids : list Z)
    (include : bool) (recs : list Recording) :
  YearRangeFilter_read s e inv (EmptyRecordingFilter_read recs)
  = EmptyRecordingFilter_read (YearRangeFilter_read s e inv recs)
  /\ YearRangeFilter_read s e inv (fst (ArtistCreditFilter_read ids include recs))
     = fst (ArtistCreditFilter_read ids include (YearRangeFilter_read s e inv recs))
  /\ EmptyRecordingFilter_read (fst (ArtistCreditFilter_read ids include recs))
     = fst (ArtistCreditFilter_read ids include (EmptyRecordingFilter_read recs)).
Proof.
  unfold ArtistCreditFilter_read. rewrite !acf_fold. simpl.
  rewrite !year_filter_eq, !empty_filter_eq.
  split; [|split]; apply filter_filter_comm.
Qed.
